(** * FindMyFont: the ranking scoreboard and the difference score

    A shallow embedding of [FindMyFont.py].  Python numbers (the ints of the
    initial scoreboard, the floats computed by [match]) are modelled by exact
    rationals [Q]; rounding, infinities and NaN are outside the model.  A
    raised Python exception is a value of [exn]. *)

From Stdlib Require Import QArith Qminmax Lqa Lia.
From stdpp Require Import list strings functions.

Local Open Scope Q_scope.

(** ** Exceptions and results *)

(** The exception classes the program can raise, by class name.  [OtherError]
    stands for any class that is not a builtin named here (a fontTools error,
    a class a caller defines). *)
Inductive exn : Type :=
  | ZeroDivisionError
  | IndexError
  | KeyError
  | OtherError (cls : string).

Inductive result (A : Type) : Type :=
  | Ok (a : A)
  | Raise (e : exn).

Arguments Ok {A} a.
Arguments Raise {A} e.

(** ** The scoreboard: [addScore] (lines 75-92)

    [array] is a Python list of rows [[score, url]].  The rows of [ranking]
    (line 68) are five distinct list objects and [addScore] copies fields
    from row to row, never a row reference, so a row is modelled by its
    value and the array by the list of its rows ([Store], below, has the
    rows as objects, and [addScore_distinct_rows] relates the two).
    [addScore] mutates the array in place: it is a computation over the
    array as state, which may stop with an exception and leave the array as
    it is at that point. *)

Abbreviation Entry := (Q * string)%type.

(** Computations over a state [Σ] that may raise. *)
Definition St (Σ A : Type) : Type := Σ -> Σ * result A.

Definition ret {Σ A} (a : A) : St Σ A := fun σ => (σ, Ok a).

Definition bind {Σ A B} (m : St Σ A) (k : A -> St Σ B) : St Σ B :=
  fun σ =>
    match m σ with
    | (σ', Ok a) => k a σ'
    | (σ', Raise e) => (σ', Raise e)
    end.

Abbreviation M := (St (list Entry)).

Declare Scope py_scope.
Delimit Scope py_scope with py.
Notation "x <- m ;; k" := (bind m (fun x => k))
  (at level 100, m at next level, right associativity) : py_scope.
Notation "m ;;; k" := (bind m (fun _ => k))
  (at level 100, right associativity) : py_scope.

(** [array.__len__()] *)
Definition len : M nat := fun array => (array, Ok (length array)).

(** [array[i][0]] and [array[i][1]], for an index [i >= 0] *)
Definition get_score (i : nat) : M Q :=
  fun array =>
    match array !! i with
    | Some row => (array, Ok row.1)
    | None => (array, Raise IndexError)
    end.

Definition get_url (i : nat) : M string :=
  fun array =>
    match array !! i with
    | Some row => (array, Ok row.2)
    | None => (array, Raise IndexError)
    end.

(** [array[i][0] = v] and [array[i][1] = v] *)
Definition set_score (i : nat) (v : Q) : M unit :=
  fun array =>
    match array !! i with
    | Some row => (<[i := (v, row.2)]> array, Ok tt)
    | None => (array, Raise IndexError)
    end.

Definition set_url (i : nat) (v : string) : M unit :=
  fun array =>
    match array !! i with
    | Some row => (<[i := (row.1, v)]> array, Ok tt)
    | None => (array, Raise IndexError)
    end.

(** Lines 79-83: [for i in range(n)] with [todo] iterations left, the next
    index being [k]; [i] and [j] are the current values of the two
    variables.  The result is their value when the loop ends. *)
Fixpoint for_loop (score : Q) (n todo k i j : nat) : M (nat * nat) :=
  match todo with
  | O => ret (i, j)
  | S todo' =>
      (s <- get_score k ;;
       if Qle_bool score s then ret (k, (n - 1)%nat)
       else for_loop score n todo' (S k) k j)%py
  end.

(** Lines 85-88: [while j > i], by recursion on [j]. *)
Fixpoint while_loop (j i : nat) : M unit :=
  match j with
  | O => ret tt
  | S j' =>
      if (i <? j)%nat then
        (s <- get_score j' ;;
         set_score j s ;;;
         u <- get_url j' ;;
         set_url j u ;;;
         while_loop j' i)%py
      else ret tt
  end.

Definition addScore_body (score : Q) (url : string) : M unit :=
  (n <- len ;;
   ij <- for_loop score n n 0 0 0 ;;
   while_loop ij.2 ij.1 ;;;
   s <- get_score ij.1 ;;
   if Qle_bool score s then
     set_score ij.1 score ;;;
     set_url ij.1 url
   else ret tt)%py.

(** [addScore(array, score, url)]: the array after the call, and how the call
    ended. *)
Definition addScore (array : list Entry) (score : Q) (url : string)
  : list Entry * result unit :=
  addScore_body score url array.

(** Line 68. *)
Definition ranking : list Entry :=
  [(100, EmptyString); (100, EmptyString); (100, EmptyString);
   (100, EmptyString); (100, EmptyString)].

(** The array after a series of calls, as the driver makes them (lines
    226-231: an exception of one call is swallowed, the array is kept). *)
Definition addScores (array : list Entry) (calls : list (Q * string))
  : list Entry :=
  fold_left (fun a c => (addScore a c.1 c.2).1) calls array.

(** [entries[0] <= entries[1] <= ... <= entries[K-1]] *)
Definition ascending (array : list Entry) : Prop :=
  forall i a b,
    array !! i = Some a -> array !! (S i) = Some b -> a.1 <= b.1.

(** The first index whose score is at least [score]. *)
Definition first_slot (array : list Entry) (score : Q) (i : nat) : Prop :=
  (exists row, array !! i = Some row /\ score <= row.1) /\
  (forall k row, (k < i)%nat -> array !! k = Some row -> ~ score <= row.1).

(** The array with [e] put at index [i], the rows from [i] on moved one slot
    to the tail and the last one dropped. *)
Definition shifted_in (array : list Entry) (i : nat) (e : Entry) : list Entry :=
  take i array ++ e :: take (length array - S i) (drop i array).

(** ** [addScore] over row objects

    The same function with the rows as objects of a store: the array is a
    list of addresses, a read or a write of [array[i][0]] goes through the
    address at index [i], and two indices may hold the same address. *)
Module Store.

Abbreviation store := (nat -> Q * string).

Definition len (array : list nat) : St store nat :=
  fun σ => (σ, Ok (length array)).

Definition get_score (array : list nat) (i : nat) : St store Q :=
  fun σ =>
    match array !! i with
    | Some a => (σ, Ok (σ a).1)
    | None => (σ, Raise IndexError)
    end.

Definition get_url (array : list nat) (i : nat) : St store string :=
  fun σ =>
    match array !! i with
    | Some a => (σ, Ok (σ a).2)
    | None => (σ, Raise IndexError)
    end.

Definition set_score (array : list nat) (i : nat) (v : Q) : St store unit :=
  fun σ =>
    match array !! i with
    | Some a => (<[a := (v, (σ a).2)]> σ, Ok tt)
    | None => (σ, Raise IndexError)
    end.

Definition set_url (array : list nat) (i : nat) (v : string) : St store unit :=
  fun σ =>
    match array !! i with
    | Some a => (<[a := ((σ a).1, v)]> σ, Ok tt)
    | None => (σ, Raise IndexError)
    end.

Fixpoint for_loop (array : list nat) (score : Q) (n todo k i j : nat)
  : St store (nat * nat) :=
  match todo with
  | O => ret (i, j)
  | S todo' =>
      (s <- get_score array k ;;
       if Qle_bool score s then ret (k, (n - 1)%nat)
       else for_loop array score n todo' (S k) k j)%py
  end.

Fixpoint while_loop (array : list nat) (j i : nat) : St store unit :=
  match j with
  | O => ret tt
  | S j' =>
      if (i <? j)%nat then
        (s <- get_score array j' ;;
         set_score array j s ;;;
         u <- get_url array j' ;;
         set_url array j u ;;;
         while_loop array j' i)%py
      else ret tt
  end.

Definition addScore (array : list nat) (score : Q) (url : string)
  : St store unit :=
  (n <- len array ;;
   ij <- for_loop array score n n 0 0 0 ;;
   while_loop array ij.2 ij.1 ;;;
   s <- get_score array ij.1 ;;
   if Qle_bool score s then
     set_score array ij.1 score ;;;
     set_url array ij.1 url
   else ret tt)%py.

(** The rows of the array, by value. *)
Definition rows (array : list nat) (σ : store) : list Entry := map σ array.

(** [h] on the store does to the rows of [array] what [m] does to the list
    of rows, and ends as [m] ends. *)
Definition simulates {A} (array : list nat) (h : St store A) (m : M A) : Prop :=
  forall σ, m (rows array σ) = (rows array (h σ).1, (h σ).2).

End Store.

(** ** The comparison: [ttfont2poly], [getPolyFactor], [match] (lines 102-173) *)

Definition rbind {A B} (m : result A) (k : A -> result B) : result B :=
  match m with
  | Ok a => k a
  | Raise e => Raise e
  end.

Declare Scope res_scope.
Delimit Scope res_scope with res.
Notation "x <- m ;; k" := (rbind m (fun x => k))
  (at level 100, m at next level, right associativity) : res_scope.

(** Python's [a / b] on numbers. *)
Definition pydiv (a b : Q) : result Q :=
  if Qeq_bool b 0 then Raise ZeroDivisionError else Ok (a / b).

(** What the program uses of fontTools, svgpath2mpl and shapely; none of it
    is code of this repository.  [to_polygons font letter] stands for lines
    104-115 (the glyph of [letter], drawn to an SVG path and parsed into its
    closed contours); the geometry operations are shapely's, [transform f g]
    being [affine_transform]: the geometry [g] with the map [f] applied to
    each of its coordinates.  The operations on two geometries are total
    here. *)
Class Shapely : Type := {
  Font : Type;
  Contour : Type;
  Region : Type;
  TTFont : string -> result Font;
  to_polygons : Font -> string -> result (list Contour);
  Polygon : Contour -> Region;
  Region_union :: Union Region;
  Region_intersection :: Intersection Region;
  area : Region -> Q;
  bounds : Region -> Q * Q * Q * Q;
  transform : (Q * Q -> Q * Q) -> Region -> Region
}.

(** The coordinate map of [shapely.affinity.scale(geom, xfact, yfact,
    origin=(x0, y0))]: the affine matrix
    [(xfact, 0, 0, yfact, x0 - x0*xfact, y0 - y0*yfact)]. *)
Definition scale_point (xfact yfact : Q) (origin : Q * Q) (p : Q * Q) : Q * Q :=
  (xfact * p.1 + 0 * p.2 + (origin.1 - origin.1 * xfact),
   0 * p.1 + yfact * p.2 + (origin.2 - origin.2 * yfact)).

Definition affinity_scale `{Shapely} (geom : Region) (xfact yfact : Q)
    (origin : Q * Q) : Region :=
  transform (scale_point xfact yfact origin) geom.

(** Lines 102-121.  [coords[0]] raises on a glyph with no contour; the loop
    runs over every contour, the first one again. *)
Definition ttfont2poly `{Shapely} (font : Font) (letter : string)
  : result Region :=
  (coords <- to_polygons font letter ;;
   match coords with
   | [] => Raise IndexError
   | c0 :: _ =>
       Ok (fold_left (fun poly c => poly ∪ Polygon c) coords (Polygon c0))
   end)%res.

(** Lines 126-130. *)
Definition getPolyFactor `{Shapely} (poly : Region) : Q * Q :=
  let '(minx, miny, maxx, maxy) := bounds poly in
  (maxx - minx, maxy - miny).

(** Lines 160-162: [poly2] on the scale of [poly1]. *)
Definition scale_to `{Shapely} (poly1 poly2 : Region) : result Region :=
  let '(x1, y1) := getPolyFactor poly1 in
  let '(x2, y2) := getPolyFactor poly2 in
  (xfact <- pydiv x1 x2 ;;
   yfact <- pydiv y1 y2 ;;
   Ok (affinity_scale poly2 xfact yfact (0, 0)))%res.

(** Lines 165-170: the share of the union that is not in the intersection. *)
Definition difference `{Shapely} (poly1 scale_poly2 : Region) : result Q :=
  let intersection := poly1 ∩ scale_poly2 in
  let union := poly1 ∪ scale_poly2 in
  pydiv (area union - area intersection) (area union).

(** Lines 156-170: what one letter adds to [total]. *)
Definition letter_difference `{Shapely} (font1 font2 : Font) (i : string)
  : result Q :=
  (poly1 <- ttfont2poly font1 i ;;
   poly2 <- ttfont2poly font2 i ;;
   scale_poly2 <- scale_to poly1 poly2 ;;
   difference poly1 scale_poly2)%res.

(** Lines 153-170: the loop over [check_chars], from the current [total] and
    [count]. *)
Fixpoint match_loop `{Shapely} (font1 font2 : Font) (check_chars : list string)
    (total : Q) (count : Z) : result (Q * Z) :=
  match check_chars with
  | [] => Ok (total, count)
  | i :: rest =>
      let count := (count + 1)%Z in
      (d <- letter_difference font1 font2 i ;;
       match_loop font1 font2 rest (total + d) count)%res
  end.

(** Lines 143-173; [match] is a keyword here. *)
Definition match_ `{Shapely} (check_chars : list string)
    (location1 location2 : string) : result Q :=
  (font1 <- TTFont location1 ;;
   font2 <- TTFont location2 ;;
   tc <- match_loop font1 font2 check_chars 0 0 ;;
   pydiv tc.1 (inject_Z tc.2))%res.

(** ** The driver (lines 192-233) *)

(** Lines 194-196: what the comparison of two local fonts prints, the number
    being the one shown before the percent sign. *)
Inductive printed : Type :=
  | Difference (percent : Q)
  | SomethingWentWrong.

Definition compare_local `{Shapely} (check_chars : list string)
    (location1 location2 : string) : printed :=
  match match_ check_chars location1 location2 with
  | Ok d => Difference d
  | Raise _ => SomethingWentWrong
  end.

(** Lines 226-231: one candidate of the catalogue, downloaded to
    [location2]. *)
Definition add_candidate `{Shapely} (check_chars : list string)
    (location1 : string) (ranking : list Entry) (font_URL location2 : string)
  : list Entry :=
  match match_ check_chars location1 location2 with
  | Ok score => (addScore ranking (score * 100) font_URL).1
  | Raise _ => ranking
  end.

(** Lines 216-231, over the candidates [(font_URL, location2)] in order. *)
Definition search `{Shapely} (check_chars : list string) (location1 : string)
    (ranking : list Entry) (candidates : list (string * string))
  : list Entry :=
  fold_left (fun r c => add_candidate check_chars location1 r c.1 c.2)
            candidates ranking.

(** The arithmetic mean of a list of numbers. *)
Definition mean (ds : list Q) : Q :=
  fold_right Qplus 0 ds / inject_Z (Z.of_nat (length ds)).

(** ** A geometry to compute with: unions of axis-parallel rectangles

    A region is a finite union of rectangles [(minx, miny, maxx, maxy)] with
    rational corners; a rectangle with [maxx < minx] or [maxy < miny] covers
    nothing.  Such regions are closed under union, intersection and the
    scalings of [affinity_scale] with factors that are not negative, and
    their area is computed exactly, by inclusion and exclusion. *)
Module Rectilinear.

Abbreviation Rect := (Q * Q * Q * Q)%type.

Definition cap (r s : Rect) : Rect :=
  let '(a, b, c, d) := r in
  let '(a', b', c', d') := s in
  (Qmax a a', Qmax b b', Qmin c c', Qmin d d').

Definition hull (r s : Rect) : Rect :=
  let '(a, b, c, d) := r in
  let '(a', b', c', d') := s in
  (Qmin a a', Qmin b b', Qmax c c', Qmax d d').

Definition rect_area (r : Rect) : Q :=
  let '(a, b, c, d) := r in Qred (Qmax 0 (c - a) * Qmax 0 (d - b)).

Fixpoint union_area (n : nat) (rs : list Rect) : Q :=
  match n, rs with
  | S n', r :: rs' =>
      Qred (rect_area r + union_area n' rs' - union_area n' (map (cap r) rs'))
  | _, _ => 0
  end.

Definition rects_area (rs : list Rect) : Q := union_area (length rs) rs.

Definition rects_inter (rs ss : list Rect) : list Rect :=
  flat_map (fun r => map (cap r) ss) rs.

(** The bounding box; of no rectangle, by convention, the origin. *)
Definition rects_bounds (rs : list Rect) : Rect :=
  match rs with
  | [] => (0, 0, 0, 0)
  | r :: rs' => fold_left hull rs' r
  end.

Definition rects_transform (f : Q * Q -> Q * Q) (rs : list Rect) : list Rect :=
  map (fun r : Rect =>
         let '(a, b, c, d) := r in
         let p := f (a, b) in
         let q := f (c, d) in
         (p.1, p.2, q.1, q.2)) rs.

(** A font is its table of glyphs, each a list of contours. *)
Abbreviation Glyphs := (list (string * list Rect)).

Fixpoint lookup_name {A} (name : string) (table : list (string * A))
  : option A :=
  match table with
  | [] => None
  | (n, a) :: table' =>
      if String.eqb name n then Some a else lookup_name name table'
  end.

(** The geometry over the font files [files], by location. *)
Definition geometry (files : list (string * Glyphs)) : Shapely := {|
  Font := Glyphs;
  Contour := Rect;
  Region := list Rect;
  TTFont location :=
    match lookup_name location files with
    | Some font => Ok font
    | None => Raise (OtherError "FileNotFoundError")
    end;
  to_polygons font letter :=
    match lookup_name letter font with
    | Some coords => Ok coords
    | None => Raise KeyError
    end;
  Polygon c := [c];
  Region_union := app;
  Region_intersection := rects_inter;
  area := rects_area;
  bounds := rects_bounds;
  transform := rects_transform
|}.

(** A square of side 2 as the reference glyph; an L of area 3 in the same
    box, and the same L drawn at twice the width, as candidates; a glyph of
    two segments, which has extents and no area; a glyph that is one
    vertical segment. *)
Definition square : Glyphs := [("A", [(0, 0, 2, 2)])]%string.
Definition ell : Glyphs := [("A", [(0, 0, 2, 1); (0, 1, 1, 2)])]%string.
Definition wide_ell : Glyphs := [("A", [(0, 0, 4, 1); (0, 1, 2, 2)])]%string.
Definition hairline : Glyphs := [("A", [(0, 0, 2, 0); (0, 0, 0, 2)])]%string.
Definition bar : Glyphs := [("A", [(0, 0, 0, 5)])]%string.

Definition files : list (string * Glyphs) :=
  [("square.ttf", square); ("ell.ttf", ell); ("wide_ell.ttf", wide_ell);
   ("hairline.ttf", hairline); ("bar.ttf", bar)]%string.

(** The geometry of these files, and some of its regions. *)
Definition world : Shapely := geometry files.

Definition nothing : @Region world := [].
Definition square_region : @Region world := [(0, 0, 2, 2)].
Definition ell_region : @Region world := [(0, 0, 2, 1); (0, 0, 2, 1); (0, 1, 1, 2)].
Definition wide_ell_region : @Region world := [(0, 0, 4, 1); (0, 1, 2, 2)].
Definition hairline_region : @Region world :=
  [(0, 0, 2, 0); (0, 0, 2, 0); (0, 0, 0, 2)].
Definition bar_region : @Region world := [(0, 0, 0, 5)].
Definition far_region : @Region world := [(5, 5, 6, 6)].

End Rectilinear.

(** ** Notions for the properties of the comparison *)

(** The difference of a letter, 0 standing in for a letter that raises. *)
Definition letter_value `{Shapely} (font1 font2 : Font) (i : string) : Q :=
  match letter_difference font1 font2 i with
  | Ok d => d
  | Raise _ => 0
  end.

(** A letter whose regions are found in both fonts and scaled, with an
    intersection that is no larger than the union and a union that has an
    area. *)
Definition scorable `{Shapely} (font1 font2 : Font) (i : string) : Prop :=
  exists poly1 poly2 scale_poly2,
    ttfont2poly font1 i = Ok poly1 /\
    ttfont2poly font2 i = Ok poly2 /\
    scale_to poly1 poly2 = Ok scale_poly2 /\
    0 <= area (poly1 ∩ scale_poly2) /\
    area (poly1 ∩ scale_poly2) <= area (poly1 ∪ scale_poly2) /\
    0 < area (poly1 ∪ scale_poly2).

(** The rows the driver submits: one for each candidate whose comparison
    returns, in the order of the catalogue. *)
Definition scored `{Shapely} (check_chars : list string) (location1 : string)
    (candidates : list (string * string)) : list (Q * string) :=
  omap (fun c : string * string =>
          match match_ check_chars location1 c.2 with
          | Ok score => Some (score * 100, c.1)
          | Raise _ => None
          end) candidates.

(** * Properties *)

(** ** Running the primitives of [addScore] *)

Lemma run_get_score array i row :
  array !! i = Some row -> get_score i array = (array, Ok row.1).
Proof. intros H. unfold get_score. by rewrite H. Qed.

Lemma run_get_url array i row :
  array !! i = Some row -> get_url i array = (array, Ok row.2).
Proof. intros H. unfold get_url. by rewrite H. Qed.

Lemma run_set_score array i row v :
  array !! i = Some row ->
  set_score i v array = (<[i := (v, row.2)]> array, Ok tt).
Proof. intros H. unfold set_score. by rewrite H. Qed.

Lemma run_set_url array i row v :
  array !! i = Some row ->
  set_url i v array = (<[i := (row.1, v)]> array, Ok tt).
Proof. intros H. unfold set_url. by rewrite H. Qed.

Lemma run_bind {A B} (m : M A) (k : A -> M B) array array' a :
  m array = (array', Ok a) -> bind m k array = k a array'.
Proof. intros H. unfold bind. by rewrite H. Qed.

(** Copying row [j-1] into row [j], field by field, is one row update. *)
Lemma copy_row array j (k : M unit) row :
  array !! j = Some row -> (S j < length array)%nat ->
  (s <- get_score j ;; set_score (S j) s ;;;
   u <- get_url j ;; set_url (S j) u ;;; k)%py array
  = k (<[S j := row]> array).
Proof.
  intros Hj Hlen.
  destruct (lookup_lt_is_Some_2 array (S j) Hlen) as [old Hold].
  rewrite (run_bind _ _ _ _ _ (run_get_score _ _ _ Hj)).
  rewrite (run_bind _ _ _ _ _ (run_set_score _ _ _ _ Hold)).
  assert (H1 : <[S j := (row.1, old.2)]> array !! j = Some row)
    by (rewrite list_lookup_insert_ne; [done | lia]).
  rewrite (run_bind _ _ _ _ _ (run_get_url _ _ _ H1)).
  assert (H2 : <[S j := (row.1, old.2)]> array !! S j = Some (row.1, old.2))
    by (by apply list_lookup_insert_eq).
  rewrite (run_bind _ _ _ _ _ (run_set_url _ _ _ _ H2)).
  rewrite list_insert_insert_eq. by destruct row.
Qed.

(** ** The scan (lines 79-83) *)

(** Neither loop variable is touched before a hit; the array is only read. *)
Lemma for_loop_miss score n array : forall todo k i j,
  (k + todo <= length array)%nat ->
  (forall m row, (k <= m < k + todo)%nat -> array !! m = Some row ->
                 ~ score <= row.1) ->
  for_loop score n todo k i j array
  = (array, Ok (match todo with O => i | S t => (k + t)%nat end, j)).
Proof.
  induction todo as [|todo IH]; intros k i j Hlen Hmiss; [done|].
  destruct (lookup_lt_is_Some_2 array k ltac:(lia)) as [row Hrow].
  cbn [for_loop]. rewrite (run_bind _ _ _ _ _ (run_get_score _ _ _ Hrow)).
  destruct (Qle_bool score row.1) eqn:E.
  - apply Qle_bool_iff in E. exfalso. apply (Hmiss k row); [lia | done | done].
  - rewrite IH; [|lia|intros m r ? ?; apply (Hmiss m r); [lia|done]].
    destruct todo; do 3 f_equal; lia.
Qed.

Lemma for_loop_hit score n array : forall todo k i j h row,
  (k <= h < k + todo)%nat ->
  array !! h = Some row -> score <= row.1 ->
  (forall m r, (k <= m < h)%nat -> array !! m = Some r -> ~ score <= r.1) ->
  for_loop score n todo k i j array = (array, Ok (h, (n - 1)%nat)).
Proof.
  induction todo as [|todo IH]; intros k i j h row Hh Hrow Hle Hmiss; [lia|].
  destruct (decide (h = k)) as [->|Hne].
  - cbn [for_loop]. rewrite (run_bind _ _ _ _ _ (run_get_score _ _ _ Hrow)).
    apply Qle_bool_iff in Hle. by rewrite Hle.
  - assert (Hk : is_Some (array !! k)).
    { apply lookup_lt_is_Some_2. apply lookup_lt_Some in Hrow. lia. }
    destruct Hk as [r Hr].
    cbn [for_loop]. rewrite (run_bind _ _ _ _ _ (run_get_score _ _ _ Hr)).
    destruct (Qle_bool score r.1) eqn:E.
    + apply Qle_bool_iff in E. exfalso. apply (Hmiss k r); [lia | done | done].
    + apply (IH (S k) k j h row); [lia | done | done |].
      intros m r' ? ?. apply (Hmiss m r'); [lia | done].
Qed.

(** ** The shift (lines 85-88) *)

Lemma while_loop_skip array j i :
  (j <= i)%nat -> while_loop j i array = (array, Ok tt).
Proof.
  intros H. destruct j as [|j]; [done|]. cbn [while_loop].
  destruct (Nat.ltb_spec i (S j)); [lia | done].
Qed.

Lemma while_loop_run i : forall j array,
  (j < length array)%nat ->
  exists array',
    while_loop j i array = (array', Ok tt) /\
    length array' = length array /\
    forall k, array' !! k =
      if decide (i < k <= j)%nat then array !! (k - 1)%nat else array !! k.
Proof.
  induction j as [|j IH]; intros array Hlen.
  - exists array. split; [done|]. split; [done|].
    intros k. case_decide; [lia | done].
  - cbn [while_loop]. destruct (Nat.ltb_spec i (S j)) as [Hlt|Hge].
    + destruct (lookup_lt_is_Some_2 array j ltac:(lia)) as [row Hrow].
      rewrite (copy_row _ _ _ _ Hrow Hlen).
      destruct (IH (<[S j := row]> array)) as (array' & Hrun & Hl & Hk).
      { rewrite length_insert. lia. }
      exists array'. split; [done|]. split; [by rewrite Hl, length_insert|].
      intros k. rewrite Hk.
      destruct (decide (k = S j)) as [->|Hne].
      * rewrite (decide_False (P := (i < S j <= j)%nat)) by lia.
        rewrite (decide_True (P := (i < S j <= S j)%nat)) by lia.
        rewrite list_lookup_insert_eq by done.
        by replace (S j - 1)%nat with j by lia.
      * repeat case_decide; try lia;
          rewrite list_lookup_insert_ne by lia; done.
    + exists array. split; [done|]. split; [done|].
      intros k. case_decide; [lia | done].
Qed.

(** ** The whole call *)

Lemma shifted_in_lookup array i e k :
  (i < length array)%nat ->
  shifted_in array i e !! k =
    if decide (k < i)%nat then array !! k
    else if decide (k = i) then Some e
    else if decide (k < length array)%nat then array !! (k - 1)%nat
    else None.
Proof.
  intros Hi. unfold shifted_in.
  assert (Hlt : length (take i array) = i) by (rewrite length_take; lia).
  destruct (decide (k < i)%nat) as [Hk|Hk].
  - rewrite lookup_app_l by lia. by rewrite lookup_take_lt.
  - rewrite lookup_app_r by lia. rewrite Hlt.
    destruct (decide (k = i)) as [->|Hne].
    + by rewrite Nat.sub_diag.
    + replace (k - i)%nat with (S (k - S i)) by lia. cbn [lookup list_lookup].
      change (take (length array - S i) (drop i array) !! (k - S i)%nat = 
              if decide (k < length array)%nat then array !! (k - 1)%nat else None).
      case_decide.
      * rewrite lookup_take_lt by lia. rewrite lookup_drop. f_equal. lia.
      * apply lookup_take_ge. lia.
Qed.

Lemma length_shifted_in array i e :
  (i < length array)%nat -> length (shifted_in array i e) = length array.
Proof.
  intros Hi. unfold shifted_in.
  rewrite length_app. cbn [length]. rewrite !length_take, length_drop. lia.
Qed.

(** A hit at [i]: the rows from [i] move to the tail and the new row is
    written at [i]. *)
Lemma addScore_hit array score url i :
  first_slot array score i ->
  addScore array score url = (shifted_in array i (score, url), Ok tt).
Proof.
  intros [(row & Hrow & Hle) Hmiss].
  assert (Hi : (i < length array)%nat) by (by eapply lookup_lt_Some).
  unfold addScore, addScore_body.
  rewrite (run_bind len _ array array (length array)) by done.
  rewrite (run_bind _ _ _ _ _
             (for_loop_hit score (length array) array (length array) 0 0 0 i row
                ltac:(lia) Hrow Hle
                ltac:(intros m r ? ?; apply (Hmiss m r); [lia|done]))).
  cbn [fst snd].
  destruct (while_loop_run i (length array - 1) array ltac:(lia))
    as (array' & Hrun & Hlen & Hk).
  rewrite (run_bind _ _ _ _ _ Hrun).
  assert (Hi' : array' !! i = Some row).
  { rewrite Hk. by rewrite decide_False by lia. }
  rewrite (run_bind _ _ _ _ _ (run_get_score _ _ _ Hi')).
  apply Qle_bool_iff in Hle. rewrite Hle.
  rewrite (run_bind _ _ _ _ _ (run_set_score _ _ _ _ Hi')).
  assert (Hi'' : <[i := (score, row.2)]> array' !! i = Some (score, row.2)).
  { apply list_lookup_insert_eq. lia. }
  rewrite (run_set_url _ _ _ _ Hi''). rewrite list_insert_insert_eq.
  f_equal. apply list_eq. intros k.
  rewrite shifted_in_lookup by done.
  destruct (decide (k = i)) as [->|Hne].
  - rewrite decide_False by lia. rewrite list_lookup_insert_eq by lia. done.
  - rewrite list_lookup_insert_ne by done. rewrite Hk.
    repeat case_decide; try lia; try done.
    apply lookup_ge_None. lia.
Qed.

(** No hit: nothing is written.  On the empty array the read of line 90
    raises; the array is empty as before. *)
Lemma addScore_miss array score url :
  (forall k row, array !! k = Some row -> ~ score <= row.1) ->
  addScore array score url =
    (array, match array with [] => Raise IndexError | _ => Ok tt end).
Proof.
  intros Hmiss. unfold addScore, addScore_body.
  rewrite (run_bind len _ array array (length array)) by done.
  rewrite (run_bind _ _ _ _ _
             (for_loop_miss score (length array) array (length array) 0 0 0
                ltac:(lia) ltac:(intros m r ? ?; by apply (Hmiss m r)))).
  cbn [fst snd].
  rewrite (run_bind _ _ _ _ _ (while_loop_skip array 0 _ ltac:(lia))).
  destruct array as [|row0 array]; [done|].
  set (arr := row0 :: array) in *.
  destruct (lookup_lt_is_Some_2 arr (length array) ltac:(simpl; lia))
    as [row Hrow].
  replace (0 + length array)%nat with (length array) by done.
  cbn [length]. 
  rewrite (run_bind _ _ _ _ _ (run_get_score _ _ _ Hrow)).
  destruct (Qle_bool score row.1) eqn:E; [|done].
  apply Qle_bool_iff in E. by destruct (Hmiss _ _ Hrow).
Qed.

(** Either some row is a slot for [score], and then there is a first one,
    or every stored score is below it. *)
Lemma slot_cases (array : list Entry) score :
  (exists i, first_slot array score i) \/
  (forall k row, array !! k = Some row -> ~ score <= row.1).
Proof.
  destruct (list_find (fun row : Entry => Qle_bool score row.1 = true) array)
    as [[i row]|] eqn:E.
  - left. exists i. apply list_find_Some in E as (Hrow & Hle & Hmiss).
    split.
    + exists row. split; [done|]. by apply Qle_bool_iff.
    + intros k r Hk Hr Hle'. apply (Hmiss k r Hr Hk). by apply Qle_bool_iff.
  - right. intros k row Hrow Hle.
    apply list_find_None in E. rewrite Forall_lookup in E.
    apply (E k row Hrow). by apply Qle_bool_iff.
Qed.

Lemma addScore_length array score url :
  length (addScore array score url).1 = length array.
Proof.
  destruct (slot_cases array score) as [[i Hi]|Hmiss].
  - rewrite (addScore_hit _ _ _ _ Hi). apply length_shifted_in.
    destruct Hi as [(row & Hrow & _) _]. by eapply lookup_lt_Some.
  - by rewrite (addScore_miss _ _ _ Hmiss).
Qed.

Lemma addScore_ascending array score url :
  ascending array -> ascending (addScore array score url).1.
Proof.
  intros Hasc. destruct (slot_cases array score) as [[i Hi]|Hmiss];
    [|by rewrite (addScore_miss _ _ _ Hmiss)].
  rewrite (addScore_hit _ _ _ _ Hi).
  destruct Hi as [(row & Hrow & Hle) Hmiss].
  assert (Hlen : (i < length array)%nat) by (by eapply lookup_lt_Some).
  cbn [fst]. intros k a b. rewrite !shifted_in_lookup by done.
  intros Ha Hb. repeat case_decide; simplify_eq/=; try lia.
  - by apply (Hasc k).
  - apply Qlt_le_weak, Qnot_le_lt. by apply (Hmiss k a).
  - replace (i - 0)%nat with i in Hb by lia. by simplify_eq.
  - apply (Hasc (k - 1)%nat); [done|].
    by replace (S (k - 1)) with (k - 0)%nat by lia.
Qed.

Example addScore_demo :
  (addScore ranking 10 "a").1 =
  [(10, "a"%string); (100, EmptyString); (100, EmptyString);
   (100, EmptyString); (100, EmptyString)].
Proof. vm_compute. reflexivity. Qed.

(** C1.  [addScore] finds the first index [i] (in ascending order) whose score
    is at least the new one, so that a tie goes before the equal row; it
    leaves the rows before [i] alone, moves the rows [i .. K-2] one slot to
    the tail, dropping the last, and writes the new row at [i].  From the
    initial [ranking] (K = 5), the six calls of the scenario leave
    [(3,e); (4,f); (5,c); (10,a); (50,b)]. *)
Theorem addScore_ranked_insertion :
  (forall (array : list Entry) score url i,
     first_slot array score i ->
     (addScore array score url).2 = Ok tt /\
     forall k, (addScore array score url).1 !! k =
       if decide (k < i)%nat then array !! k
       else if decide (k = i) then Some (score, url)
       else if decide (k < length array)%nat then array !! (k - 1)%nat
       else None) /\
  addScores ranking
    [(10, "a"); (50, "b"); (5, "c"); (90, "d"); (3, "e"); (4, "f")]%string
  = [(3, "e"); (4, "f"); (5, "c"); (10, "a"); (50, "b")]%string.
Proof.
  split; [|vm_compute; reflexivity].
  intros array score url i Hi. rewrite (addScore_hit _ _ _ _ Hi). cbn [fst snd].
  split; [done|]. intros k. apply shifted_in_lookup.
  destruct Hi as [(row & Hrow & _) _]. by eapply lookup_lt_Some.
Qed.

Lemma addScore_ranked_insertion_witness :
  first_slot [(3, "e"); (5, "c"); (5, "x"); (9, "y")]%string 5 1 /\
  (addScore [(3, "e"); (5, "c"); (5, "x"); (9, "y")]%string 5 "new").1
  = [(3, "e"); (5, "new"); (5, "c"); (5, "x")]%string.
Proof.
  assert (H : first_slot [(3, "e"); (5, "c"); (5, "x"); (9, "y")]%string 5 1).
  { split.
    - eexists. split; [reflexivity|]. cbn. discriminate.
    - intros [|k] row Hk Hrow; [|lia]. injection Hrow as <-. cbn.
      intros Hle. apply Hle. reflexivity. }
  split; [exact H|].
  apply list_eq. intros k.
  rewrite (proj2 (proj1 addScore_ranked_insertion _ 5 "new"%string 1%nat H) k).
  by do 5 (destruct k as [|k]; [reflexivity|]).
Defined.

(** C2.  A scoreboard in ascending order of score stays in ascending order
    under every series of [addScore] calls. *)
Theorem addScores_ascending (array : list Entry) calls :
  ascending array -> ascending (addScores array calls).
Proof.
  revert array. induction calls as [|c calls IH]; intros array Hasc; [done|].
  apply IH. by apply addScore_ascending.
Qed.

Lemma ascending_ranking : ascending ranking.
Proof.
  intros i a b Ha Hb.
  do 5 (destruct i as [|i]; [simplify_eq/=; try apply Qle_refl|]); done.
Qed.

Lemma addScores_ascending_witness :
  ascending ranking /\
  ascending (addScores ranking [(10, "a"); (50, "b"); (5, "c")]%string).
Proof.
  split; [exact ascending_ranking|].
  exact (addScores_ascending ranking _ ascending_ranking).
Defined.

(** C3.  The scoreboard keeps its size: after any series of [addScore] calls
    the array has as many rows as before, and [ranking] has five. *)
Theorem addScores_length (array : list Entry) calls :
  length (addScores array calls) = length array /\ length ranking = 5%nat.
Proof.
  split; [|done]. revert array.
  induction calls as [|c calls IH]; intros array; [done|].
  cbn [addScores fold_left]. etrans; [apply IH|]. apply addScore_length.
Qed.

(** C4.  When the new score is strictly greater than every stored score,
    [addScore] leaves every row, score and label, as it was. *)
Theorem addScore_worse_unchanged (array : list Entry) score url :
  (forall row, row ∈ array -> row.1 < score) ->
  (addScore array score url).1 = array.
Proof.
  intros Hall. rewrite addScore_miss; [done|].
  intros k row Hrow Hle. apply (Qlt_not_le row.1 score); [|done].
  apply Hall, list_elem_of_lookup. by exists k.
Qed.

Lemma addScore_worse_unchanged_witness :
  (forall row : Entry, row ∈ [(3, "e"); (50, "b")]%string -> row.1 < 90) /\
  (addScore [(3, "e"); (50, "b")]%string 90 "d").1
  = [(3, "e"); (50, "b")]%string.
Proof.
  assert (H : forall row : Entry,
             row ∈ [(3, "e"); (50, "b")]%string -> row.1 < 90).
  { intros row Hin. apply list_elem_of_In in Hin.
    destruct Hin as [<-|[<-|[]]]; reflexivity. }
  split; [exact H|]. exact (addScore_worse_unchanged _ 90 "d"%string H).
Defined.

(** ** The rows as objects *)

Section Store.
Variable array : list nat.

Lemma rows_lookup σ i : Store.rows array σ !! i = σ <$> array !! i.
Proof. unfold Store.rows. apply list_lookup_fmap. Qed.

(** A write through an address that the array holds once changes one row. *)
Lemma rows_insert σ i a row :
  NoDup array -> array !! i = Some a ->
  Store.rows array (<[a := row]> σ) = <[i := row]> (Store.rows array σ).
Proof.
  intros Hnd Ha. apply list_eq. intros k. rewrite rows_lookup.
  destruct (decide (k = i)) as [->|Hne].
  - rewrite Ha. cbn. rewrite fn_lookup_insert.
    rewrite list_lookup_insert_eq; [done|].
    unfold Store.rows. rewrite length_map. by eapply lookup_lt_Some.
  - rewrite list_lookup_insert_ne by done. rewrite rows_lookup.
    destruct (array !! k) as [a'|] eqn:Ek; [|done]. cbn.
    rewrite fn_lookup_insert_ne; [done|].
    intros ->. apply Hne. by apply (NoDup_lookup array k i a').
Qed.

Lemma simulates_ret {A} (a : A) : Store.simulates array (ret a) (ret a).
Proof. by intros σ. Qed.

Lemma simulates_bind {A B} (h : St Store.store A) (m : M A)
    (hk : A -> St Store.store B) (mk : A -> M B) :
  Store.simulates array h m -> (forall a, Store.simulates array (hk a) (mk a)) ->
  Store.simulates array (bind h hk) (bind m mk).
Proof.
  intros Hm Hk σ. unfold bind. rewrite (Hm σ).
  destruct (h σ) as [σ' [a|e]]; cbn [fst snd]; [apply Hk | done].
Qed.

Lemma simulates_len : Store.simulates array (Store.len array) len.
Proof. intros σ. unfold len, Store.len, Store.rows. by rewrite length_map. Qed.

Lemma simulates_get_score i :
  Store.simulates array (Store.get_score array i) (get_score i).
Proof.
  intros σ. unfold get_score, Store.get_score. rewrite rows_lookup.
  by destruct (array !! i).
Qed.

Lemma simulates_get_url i :
  Store.simulates array (Store.get_url array i) (get_url i).
Proof.
  intros σ. unfold get_url, Store.get_url. rewrite rows_lookup.
  by destruct (array !! i).
Qed.

Lemma simulates_set_score i v :
  NoDup array -> Store.simulates array (Store.set_score array i v) (set_score i v).
Proof.
  intros Hnd σ. unfold set_score, Store.set_score. rewrite rows_lookup.
  destruct (array !! i) as [a|] eqn:Ea; [|done]. cbn.
  by rewrite (rows_insert _ _ _ _ Hnd Ea).
Qed.

Lemma simulates_set_url i v :
  NoDup array -> Store.simulates array (Store.set_url array i v) (set_url i v).
Proof.
  intros Hnd σ. unfold set_url, Store.set_url. rewrite rows_lookup.
  destruct (array !! i) as [a|] eqn:Ea; [|done]. cbn.
  by rewrite (rows_insert _ _ _ _ Hnd Ea).
Qed.

Lemma simulates_for_loop score n : forall todo k i j,
  Store.simulates array (Store.for_loop array score n todo k i j)
                  (for_loop score n todo k i j).
Proof.
  induction todo as [|todo IH]; intros k i j; [apply simulates_ret|].
  cbn [for_loop Store.for_loop].
  apply simulates_bind; [apply simulates_get_score|].
  intros s. destruct (Qle_bool score s); [apply simulates_ret | apply IH].
Qed.

Lemma simulates_while_loop i :
  NoDup array -> forall j,
  Store.simulates array (Store.while_loop array j i) (while_loop j i).
Proof.
  intros Hnd. induction j as [|j IH]; [apply simulates_ret|].
  cbn [while_loop Store.while_loop].
  destruct (i <? S j)%nat; [|apply simulates_ret].
  apply simulates_bind; [apply simulates_get_score|]. intros s.
  apply simulates_bind; [by apply simulates_set_score|]. intros _.
  apply simulates_bind; [apply simulates_get_url|]. intros u.
  apply simulates_bind; [by apply simulates_set_url|]. intros _.
  apply IH.
Qed.

End Store.

(** X1.  When the rows of the array are distinct objects, as the five rows
    of [ranking] are, [addScore] on the store changes the rows of the array
    as [addScore] on the list of rows does, and ends the same way. *)
Theorem addScore_distinct_rows (array : list nat) score url σ :
  NoDup array ->
  addScore (Store.rows array σ) score url
  = (Store.rows array (Store.addScore array score url σ).1,
     (Store.addScore array score url σ).2).
Proof.
  intros Hnd. revert σ.
  change (Store.simulates array (Store.addScore array score url)
            (addScore_body score url)).
  unfold Store.addScore, addScore_body.
  apply simulates_bind; [apply simulates_len|]. intros n.
  apply simulates_bind; [apply simulates_for_loop|]. intros ij.
  apply simulates_bind; [by apply simulates_while_loop|]. intros _.
  apply simulates_bind; [apply simulates_get_score|]. intros s.
  destruct (Qle_bool score s); [|apply simulates_ret].
  apply simulates_bind; [by apply simulates_set_score|]. intros _.
  by apply simulates_set_url.
Qed.

Lemma addScore_distinct_rows_witness :
  NoDup [0; 1; 2; 3; 4]%nat /\
  Store.rows [0; 1; 2; 3; 4]%nat
    (Store.addScore [0; 1; 2; 3; 4]%nat 10 "a"
       (fun _ => (100, EmptyString))).1
  = (addScore ranking 10 "a").1.
Proof.
  assert (Hnd : NoDup [0; 1; 2; 3; 4]%nat)
    by (apply (bool_decide_unpack _); reflexivity).
  split; [exact Hnd|].
  pose proof (addScore_distinct_rows [0; 1; 2; 3; 4]%nat 10 "a"
                (fun _ => (100, EmptyString)) Hnd) as E.
  change (Store.rows [0; 1; 2; 3; 4]%nat (fun _ => (100, EmptyString)))
    with ranking in E.
  by rewrite E.
Defined.

(** ** The comparison *)

Lemma pydiv_zero a b : b == 0 -> pydiv a b = Raise ZeroDivisionError.
Proof. intros Hb. unfold pydiv. apply Qeq_bool_iff in Hb. by rewrite Hb. Qed.

Lemma pydiv_nonzero a b : ~ b == 0 -> pydiv a b = Ok (a / b).
Proof.
  intros Hb. unfold pydiv. destruct (Qeq_bool b 0) eqn:E; [|done].
  by apply Qeq_bool_iff in E.
Qed.

Lemma scale_point_origin xfact yfact p :
  (scale_point xfact yfact (0, 0) p).1 == p.1 * xfact /\
  (scale_point xfact yfact (0, 0) p).2 == p.2 * yfact.
Proof. unfold scale_point. cbn [fst snd]. split; ring. Qed.

(** A mean of fractions is a fraction, and a percentage once multiplied by
    100. *)
Lemma sum_unit_interval ds :
  Forall (fun d => 0 <= d <= 1) ds ->
  0 <= fold_right Qplus 0 ds <= inject_Z (Z.of_nat (length ds)).
Proof.
  induction 1 as [|d ds [Hd0 Hd1] _ [IH0 IH1]]; cbn [fold_right length].
  - split; apply Qle_refl.
  - rewrite Nat2Z.inj_succ, <- Z.add_1_r, inject_Z_plus.
    change (inject_Z 1) with 1. split; lra.
Qed.

Lemma mean_percentage ds :
  ds <> [] -> Forall (fun d => 0 <= d <= 1) ds ->
  0 <= mean ds * 100 <= 100.
Proof.
  intros Hne Hall. destruct (sum_unit_interval ds Hall) as [H0 H1].
  assert (Hn : 0 < inject_Z (Z.of_nat (length ds))).
  { destruct ds as [|d ds]; [done|]. unfold Qlt. cbn. lia. }
  assert (0 <= mean ds <= 1); [|lra]. unfold mean. split.
  - apply Qle_shift_div_l; [done|]. lra.
  - apply Qle_shift_div_r; [done|]. lra.
Qed.

Section Comparison.
Context `{Shapely}.

Lemma getPolyFactor_bounds (poly : Region) minx miny maxx maxy :
  bounds poly = (minx, miny, maxx, maxy) ->
  getPolyFactor poly = (maxx - minx, maxy - miny).
Proof. intros Hb. unfold getPolyFactor. by rewrite Hb. Qed.

Lemma scale_to_ok (poly1 poly2 : Region) x1 y1 x2 y2 :
  getPolyFactor poly1 = (x1, y1) -> getPolyFactor poly2 = (x2, y2) ->
  ~ x2 == 0 -> ~ y2 == 0 ->
  scale_to poly1 poly2 = Ok (affinity_scale poly2 (x1 / x2) (y1 / y2) (0, 0)).
Proof.
  intros H1 H2 Hx Hy. unfold scale_to. rewrite H1, H2.
  rewrite (pydiv_nonzero _ _ Hx). cbn [rbind].
  by rewrite (pydiv_nonzero _ _ Hy).
Qed.

Lemma scale_to_zero_extent (poly1 poly2 : Region) :
  (getPolyFactor poly2).1 == 0 \/ (getPolyFactor poly2).2 == 0 ->
  scale_to poly1 poly2 = Raise ZeroDivisionError.
Proof.
  intros Hz. unfold scale_to.
  destruct (getPolyFactor poly1) as [x1 y1].
  destruct (getPolyFactor poly2) as [x2 y2]. cbn [fst snd] in Hz.
  unfold pydiv. destruct (Qeq_bool x2 0) eqn:Ex; [done|]. cbn [rbind].
  destruct Hz as [Hz|Hz]; apply Qeq_bool_iff in Hz; [congruence|].
  by rewrite Hz.
Qed.

(** The difference of two regions is a fraction when the intersection is
    no larger than the union and the union has an area. *)
Lemma difference_unit_interval (poly1 scale_poly2 : Region) :
  0 <= area (poly1 ∩ scale_poly2) ->
  area (poly1 ∩ scale_poly2) <= area (poly1 ∪ scale_poly2) ->
  0 < area (poly1 ∪ scale_poly2) ->
  exists d, difference poly1 scale_poly2 = Ok d /\ 0 <= d <= 1.
Proof.
  intros H0 Hle Hpos. unfold difference.
  rewrite pydiv_nonzero by lra. eexists. split; [done|]. split.
  - apply Qle_shift_div_l; [done|]. lra.
  - apply Qle_shift_div_r; [done|]. lra.
Qed.

(** A letter that raises ends the loop: later letters are not looked at and
    nothing is averaged. *)
Lemma match_loop_raise (font1 font2 : Font) i rest total count e :
  letter_difference font1 font2 i = Raise e ->
  match_loop font1 font2 (i :: rest) total count = Raise e.
Proof. intros Hi. cbn [match_loop]. by rewrite Hi. Qed.

Lemma match_loop_app (font1 font2 : Font) ds : forall pre post total count,
  Forall2 (fun i d => letter_difference font1 font2 i = Ok d) pre ds ->
  match_loop font1 font2 (pre ++ post) total count
  = match_loop font1 font2 post (fold_left Qplus ds total)
               (count + Z.of_nat (length pre))%Z.
Proof.
  induction ds as [|d ds IH]; intros pre post total count Hall.
  - apply Forall2_nil_inv_r in Hall as ->. cbn. by rewrite Z.add_0_r.
  - apply Forall2_cons_inv_r in Hall as (i & pre' & Hi & Hall & ->).
    cbn [app match_loop]. rewrite Hi. cbn [rbind]. rewrite (IH _ _ _ _ Hall).
    cbn [fold_left length]. f_equal. lia.
Qed.

Lemma fold_left_Qplus ds : forall total,
  fold_left Qplus ds total == total + fold_right Qplus 0 ds.
Proof.
  induction ds as [|d ds IH]; intros total; cbn [fold_left fold_right].
  - ring.
  - rewrite IH. ring.
Qed.

(** X2.  For letters that all give a difference, and at least one letter,
    [match] returns the mean of the differences, as a fraction: it does not
    multiply by 100. *)
Lemma match_mean check_chars location1 location2 (font1 font2 : Font) ds :
  TTFont location1 = Ok font1 -> TTFont location2 = Ok font2 ->
  check_chars <> [] ->
  Forall2 (fun i d => letter_difference font1 font2 i = Ok d) check_chars ds ->
  exists s, match_ check_chars location1 location2 = Ok s /\ s == mean ds.
Proof.
  intros H1 H2 Hne Hall. unfold match_. rewrite H1, H2. cbn [rbind].
  pose proof (match_loop_app font1 font2 ds check_chars [] 0 0 Hall) as E.
  rewrite app_nil_r in E. rewrite E. cbn [match_loop rbind fst snd].
  rewrite Z.add_0_l. rewrite pydiv_nonzero.
  - assert (Hl : length check_chars = length ds) by (by eapply Forall2_length).
    eexists. split; [done|]. unfold mean. rewrite fold_left_Qplus, Hl.
    by rewrite Qplus_0_l.
  - destruct check_chars as [|i l]; [done|]. cbn [length].
    unfold Qeq. cbn. lia.
Qed.

(** X3.  If a letter raises after letters that gave a difference, [match]
    raises the same exception: no average of the letters before it is
    returned. *)
Lemma match_propagates pre i post location1 location2 (font1 font2 : Font) ds e :
  TTFont location1 = Ok font1 -> TTFont location2 = Ok font2 ->
  Forall2 (fun i d => letter_difference font1 font2 i = Ok d) pre ds ->
  letter_difference font1 font2 i = Raise e ->
  match_ (pre ++ i :: post) location1 location2 = Raise e.
Proof.
  intros H1 H2 Hall Hi. unfold match_. rewrite H1, H2. cbn [rbind].
  rewrite (match_loop_app _ _ _ _ _ _ _ Hall).
  by rewrite (match_loop_raise _ _ _ _ _ _ _ Hi).
Qed.

(** The catalogue path stores [score * 100]; a comparison that raises
    leaves the scoreboard as it is. *)
Lemma add_candidate_percent check_chars location1 ranking font_URL location2 s :
  match_ check_chars location1 location2 = Ok s ->
  add_candidate check_chars location1 ranking font_URL location2
  = (addScore ranking (s * 100) font_URL).1.
Proof. intros Hm. unfold add_candidate. by rewrite Hm. Qed.

Lemma add_candidate_raise check_chars location1 ranking font_URL location2 e :
  match_ check_chars location1 location2 = Raise e ->
  add_candidate check_chars location1 ranking font_URL location2 = ranking.
Proof. intros Hm. unfold add_candidate. by rewrite Hm. Qed.

Lemma compare_local_fraction check_chars location1 location2 s :
  match_ check_chars location1 location2 = Ok s ->
  compare_local check_chars location1 location2 = Difference s.
Proof. intros Hm. unfold compare_local. by rewrite Hm. Qed.

End Comparison.

Lemma match_mean_witness :
  exists s, @match_ Rectilinear.world ["A"; "A"]%string "square.ttf" "ell.ttf"
            = Ok s /\ s == mean [1 # 4; 1 # 4].
Proof.
  refine (@match_mean Rectilinear.world ["A"; "A"]%string
            "square.ttf" "ell.ttf" Rectilinear.square Rectilinear.ell
            [1 # 4; 1 # 4] _ _ _ _).
  - reflexivity.
  - reflexivity.
  - discriminate.
  - repeat constructor.
Defined.

Lemma match_propagates_witness :
  @match_ Rectilinear.world ["A"; "B"; "A"]%string "square.ttf" "ell.ttf"
  = Raise KeyError.
Proof.
  refine (@match_propagates Rectilinear.world ["A"%string] "B" ["A"%string]
            "square.ttf" "ell.ttf" Rectilinear.square Rectilinear.ell
            [1 # 4] KeyError _ _ _ _).
  - reflexivity.
  - reflexivity.
  - repeat constructor.
  - reflexivity.
Defined.

(** The driver keeps the scoreboard's size and order: a candidate either
    goes through [addScore] or leaves the array alone. *)
Lemma search_invariant `{Shapely} check_chars location1 candidates :
  forall ranking : list Entry,
    length (search check_chars location1 ranking candidates) = length ranking /\
    (ascending ranking ->
     ascending (search check_chars location1 ranking candidates)).
Proof.
  induction candidates as [|c candidates IH]; intros ranking; [done|].
  cbn [search fold_left].
  destruct (IH (add_candidate check_chars location1 ranking c.1 c.2))
    as [Hlen Hasc].
  unfold search in *. unfold add_candidate in *.
  destruct (match_ check_chars location1 c.2) as [s|e]; [|done].
  split.
  - rewrite Hlen. apply addScore_length.
  - intros Hr. apply Hasc. by apply addScore_ascending.
Qed.

(** ** The claims about the comparison *)

(** C5, as the code has it.  When the union of the two regions has area 0,
    line 170 divides by zero: the letter has no score, [ZeroDivisionError]
    is raised, and it ends the loop of [match] whatever letters follow. *)
Theorem difference_zero_union `{Shapely} (poly1 scale_poly2 : Region) :
  area (poly1 ∪ scale_poly2) == 0 ->
  difference poly1 scale_poly2 = Raise ZeroDivisionError /\
  forall (font1 font2 : Font) i rest total count poly2,
    ttfont2poly font1 i = Ok poly1 ->
    ttfont2poly font2 i = Ok poly2 ->
    scale_to poly1 poly2 = Ok scale_poly2 ->
    match_loop font1 font2 (i :: rest) total count = Raise ZeroDivisionError.
Proof.
  intros Hz.
  assert (Hd : difference poly1 scale_poly2 = Raise ZeroDivisionError)
    by (unfold difference; by apply pydiv_zero).
  split; [done|]. intros font1 font2 i rest total count poly2 H1 H2 Hs.
  apply match_loop_raise. unfold letter_difference.
  rewrite H1, H2. cbn [rbind]. rewrite Hs. done.
Qed.

Lemma difference_zero_union_witness :
  area (Rectilinear.hairline_region ∪ Rectilinear.hairline_region) == 0 /\
  difference Rectilinear.hairline_region Rectilinear.hairline_region
  = Raise ZeroDivisionError.
Proof.
  split; [reflexivity|].
  apply (@difference_zero_union Rectilinear.world). reflexivity.
Defined.

(** C5, as stated, fails: for two empty regions the union has area 0 and
    the computation raises instead of giving the score 0. *)
Lemma difference_empty_regions_raises :
  area (Rectilinear.nothing ∪ Rectilinear.nothing) == 0 /\
  difference Rectilinear.nothing Rectilinear.nothing
    = Raise ZeroDivisionError /\
  ~ exists s, difference Rectilinear.nothing Rectilinear.nothing = Ok s /\
              s == 0.
Proof.
  split; [reflexivity|]. split; [reflexivity|].
  intros (s & Hs & _). discriminate Hs.
Qed.

(** C6.  With bounding boxes [(a1, b1, c1, d1)] of [poly1] and
    [(a2, b2, c2, d2)] of [poly2], the second of non-zero width and height,
    lines 160-162 compute [sx = (c1 - a1) / (c2 - a2)] and
    [sy = (d1 - b1) / (d2 - b2)] and transform [poly2] by the map that sends
    every point [(x, y)] to [(x * sx, y * sy)]: a scaling about the origin,
    with no offset. *)
Theorem scale_to_bounding_box `{Shapely} (poly1 poly2 : Region)
    a1 b1 c1 d1 a2 b2 c2 d2 :
  bounds poly1 = (a1, b1, c1, d1) ->
  bounds poly2 = (a2, b2, c2, d2) ->
  ~ c2 - a2 == 0 -> ~ d2 - b2 == 0 ->
  scale_to poly1 poly2
  = Ok (transform
          (scale_point ((c1 - a1) / (c2 - a2)) ((d1 - b1) / (d2 - b2)) (0, 0))
          poly2) /\
  forall x y,
    (scale_point ((c1 - a1) / (c2 - a2)) ((d1 - b1) / (d2 - b2)) (0, 0)
       (x, y)).1 == x * ((c1 - a1) / (c2 - a2)) /\
    (scale_point ((c1 - a1) / (c2 - a2)) ((d1 - b1) / (d2 - b2)) (0, 0)
       (x, y)).2 == y * ((d1 - b1) / (d2 - b2)).
Proof.
  intros H1 H2 Hx Hy. split.
  - apply scale_to_ok; [by apply getPolyFactor_bounds.. | done | done].
  - intros x y. apply (scale_point_origin _ _ (x, y)).
Qed.

Lemma scale_to_bounding_box_witness :
  scale_to Rectilinear.square_region Rectilinear.wide_ell_region
  = Ok (transform
          (scale_point ((2 - 0) / (4 - 0)) ((2 - 0) / (2 - 0)) (0, 0))
          Rectilinear.wide_ell_region).
Proof.
  refine (proj1 (@scale_to_bounding_box Rectilinear.world
                   Rectilinear.square_region Rectilinear.wide_ell_region
                   0 0 2 2 0 0 4 2 _ _ _ _)).
  - reflexivity.
  - reflexivity.
  - apply Qeq_bool_neq. reflexivity.
  - apply Qeq_bool_neq. reflexivity.
Defined.

(** C7, as the code has it.  When the bounding box of the candidate's
    region has width 0 or height 0, lines 160-162 divide by zero: the
    exception is Python's [ZeroDivisionError], the one a zero-area union
    raises too, and it ends the loop of [match] without a score. *)
Theorem scale_to_degenerate `{Shapely} (poly1 poly2 : Region) :
  (getPolyFactor poly2).1 == 0 \/ (getPolyFactor poly2).2 == 0 ->
  scale_to poly1 poly2 = Raise ZeroDivisionError /\
  forall (font1 font2 : Font) i rest total count,
    ttfont2poly font1 i = Ok poly1 ->
    ttfont2poly font2 i = Ok poly2 ->
    match_loop font1 font2 (i :: rest) total count = Raise ZeroDivisionError.
Proof.
  intros Hz. pose proof (scale_to_zero_extent poly1 poly2 Hz) as Hs.
  split; [done|]. intros font1 font2 i rest total count H1 H2.
  apply match_loop_raise. unfold letter_difference.
  rewrite H1, H2. cbn [rbind]. by rewrite Hs.
Qed.

Lemma scale_to_degenerate_witness :
  (getPolyFactor Rectilinear.bar_region).1 == 0 /\
  scale_to Rectilinear.square_region Rectilinear.bar_region
  = Raise ZeroDivisionError.
Proof.
  split; [reflexivity|].
  apply (@scale_to_degenerate Rectilinear.world). left. reflexivity.
Defined.

(** C7, as stated, fails: the exception raised for a candidate of width 0 is
    [ZeroDivisionError], not an exception of a class [DegenerateRegion]. *)
Lemma scale_to_degenerate_not_typed :
  (getPolyFactor Rectilinear.bar_region).1 == 0 /\
  scale_to Rectilinear.square_region Rectilinear.bar_region
  <> Raise (OtherError "DegenerateRegion").
Proof. split; [reflexivity|]. discriminate. Qed.

(** C8, on the path of lines 192-196.  For a reference glyph that is a
    square of side 2 and a candidate that is an L of area 3 in the same
    box, the difference is 1/4: the catalogue path stores 25 in the
    scoreboard, the comparison of two local fonts prints 1/4 before the
    percent sign. *)
Theorem compare_local_prints_fraction :
  @match_ Rectilinear.world
    ["A"%string] "square.ttf" "ell.ttf" = Ok (1 # 4) /\
  @compare_local Rectilinear.world
    ["A"%string] "square.ttf" "ell.ttf" = Difference (1 # 4) /\
  @add_candidate Rectilinear.world
    ["A"%string] "square.ttf" ranking "ell" "ell.ttf"
  = [((1 # 4) * 100, "ell"%string); (100, EmptyString); (100, EmptyString);
     (100, EmptyString); (100, EmptyString)] /\
  (1 # 4) * 100 == 25.
Proof. repeat split; vm_compute; reflexivity. Qed.

(** C9, as the code has it.  Let [R] be the region of a letter on both
    sides, with a bounding box of non-zero width [x] and height [y].  The
    scale factors are [x / x = 1] and [y / y = 1], the scaling leaves every
    point where it is, and if the geometry gives the union and the
    intersection of [R] with that copy the area of [R], and this area is not
    0, the difference of the letter is 0. *)
Theorem self_difference_zero `{Shapely} (font1 font2 : Font) i (R : Region) x y :
  ttfont2poly font1 i = Ok R ->
  ttfont2poly font2 i = Ok R ->
  getPolyFactor R = (x, y) ->
  ~ x == 0 -> ~ y == 0 ->
  area (R ∪ affinity_scale R (x / x) (y / y) (0, 0)) == area R ->
  area (R ∩ affinity_scale R (x / x) (y / y) (0, 0)) == area R ->
  ~ area R == 0 ->
  (x / x == 1 /\ y / y == 1 /\
   forall p, (scale_point (x / x) (y / y) (0, 0) p).1 == p.1 /\
             (scale_point (x / x) (y / y) (0, 0) p).2 == p.2) /\
  exists s, letter_difference font1 font2 i = Ok s /\ s == 0.
Proof.
  intros H1 H2 Hf Hx Hy HU HI HR.
  assert (Ex : x / x == 1) by (by field).
  assert (Ey : y / y == 1) by (by field).
  split.
  - split; [done|]. split; [done|]. intros p.
    destruct (scale_point_origin (x / x) (y / y) p) as [-> ->].
    rewrite Ex, Ey. split; ring.
  - unfold letter_difference. rewrite H1, H2. cbn [rbind].
    rewrite (scale_to_ok R R x y x y Hf Hf Hx Hy). cbn [rbind].
    unfold difference. rewrite pydiv_nonzero by (by rewrite HU).
    eexists. split; [done|]. rewrite HU, HI. by field.
Qed.

Lemma self_difference_zero_witness :
  exists s,
    @letter_difference Rectilinear.world Rectilinear.ell Rectilinear.ell "A"
    = Ok s /\ s == 0.
Proof.
  refine (proj2 (@self_difference_zero Rectilinear.world
                   Rectilinear.ell Rectilinear.ell "A"
                   Rectilinear.ell_region 2 2 _ _ _ _ _ _ _ _)).
  - reflexivity.
  - reflexivity.
  - reflexivity.
  - apply Qeq_bool_neq. reflexivity.
  - apply Qeq_bool_neq. reflexivity.
  - reflexivity.
  - reflexivity.
  - apply Qeq_bool_neq. reflexivity.
Defined.

(** C9, as stated, fails: a region made of two segments has a bounding box
    of width 2 and height 2, so that the scale factors are 1, and area 0;
    compared with itself it raises [ZeroDivisionError]. *)
Lemma self_difference_hairline_raises :
  @ttfont2poly Rectilinear.world Rectilinear.hairline "A"
    = Ok Rectilinear.hairline_region /\
  getPolyFactor Rectilinear.hairline_region = (2 - 0, 2 - 0) /\
  @letter_difference Rectilinear.world
    Rectilinear.hairline Rectilinear.hairline "A"
    = Raise ZeroDivisionError /\
  ~ exists s, @letter_difference Rectilinear.world
                Rectilinear.hairline Rectilinear.hairline "A" = Ok s /\
              s == 0.
Proof.
  split; [reflexivity|]. split; [reflexivity|]. split; [reflexivity|].
  intros (s & Hs & _). discriminate Hs.
Qed.

(** C10.  With no letter to check, the loop leaves [total] and [count] at
    0 and the division of line 173 raises: [match] returns no score, and
    once both fonts are loaded the exception is [ZeroDivisionError]. *)
Theorem match_no_letters `{Shapely} location1 location2 :
  (forall font1 font2 : Font, match_loop font1 font2 [] 0 0 = Ok (0, 0%Z)) /\
  match_ [] location1 location2
  = (font1 <- TTFont location1 ;;
     font2 <- TTFont location2 ;;
     Raise ZeroDivisionError)%res /\
  ~ exists s, match_ [] location1 location2 = Ok s.
Proof.
  split; [done|].
  assert (E : match_ [] location1 location2
              = (font1 <- TTFont location1 ;;
                 font2 <- TTFont location2 ;;
                 Raise ZeroDivisionError)%res).
  { unfold match_. destruct (TTFont location1); [|done].
    destruct (TTFont location2); done. }
  split; [done|]. rewrite E. intros [s Hs].
  destruct (TTFont location1); [|done]. destruct (TTFont location2); done.
Qed.

(** * More of the scoreboard *)

(** In an ascending array a row is at most every row after it. *)
Lemma ascending_le (array : list Entry) i j a b :
  ascending array -> (i <= j)%nat ->
  array !! i = Some a -> array !! j = Some b -> a.1 <= b.1.
Proof.
  intros Hasc Hij Ha. revert b. induction Hij as [|j Hij IH]; intros b Hb.
  - simplify_eq. apply Qle_refl.
  - destruct (lookup_lt_is_Some_2 array j) as [c Hc].
    { apply lookup_lt_Some in Hb. lia. }
    eapply Qle_trans; [by apply IH | by apply (Hasc j)].
Qed.

(** On an array that ends with [last], a hit at [i] puts the new row at [i]
    among the other rows, in their order, and [last] is gone. *)
Lemma shifted_in_snoc (init : list Entry) last i e :
  (i <= length init)%nat ->
  shifted_in (init ++ [last]) i e = take i init ++ e :: drop i init.
Proof.
  intros Hi. unfold shifted_in. rewrite take_app_le by done.
  rewrite drop_app_le by done. rewrite length_app. cbn [length].
  replace (length init + 1 - S i)%nat with (length (drop i init))
    by (rewrite length_drop; lia).
  by rewrite take_app_length.
Qed.

Lemma first_slot_snoc (init : list Entry) last score i :
  first_slot (init ++ [last]) score i -> (i <= length init)%nat.
Proof.
  intros [(row & Hrow & _) _]. apply lookup_lt_Some in Hrow.
  rewrite length_app in Hrow. cbn in Hrow. lia.
Qed.

(** X4.  [addScore] raises only on an empty array: there the read of line
    90 raises [IndexError]; on every other array the call ends normally,
    whatever the score. *)
Theorem addScore_raises_only_on_empty (array : list Entry) score url :
  (addScore array score url).2
  = match array with [] => Raise IndexError | _ :: _ => Ok tt end.
Proof.
  destruct (slot_cases array score) as [[i Hi]|Hmiss].
  - rewrite (addScore_hit _ _ _ _ Hi). destruct array; [|done].
    by destruct Hi as [(row & Hrow & _) _].
  - by rewrite (addScore_miss _ _ _ Hmiss).
Qed.

(** X5.  A score that is not worse than every stored one is recorded: if
    some row has a score at least [score], the row [(score, url)] is in the
    array after the call. *)
Theorem addScore_records (array : list Entry) score url :
  (exists row, row ∈ array /\ score <= row.1) ->
  (score, url) ∈ (addScore array score url).1.
Proof.
  intros (row & Hin & Hle).
  destruct (slot_cases array score) as [[i Hi]|Hmiss].
  - rewrite (addScore_hit _ _ _ _ Hi). cbn [fst].
    apply list_elem_of_lookup. exists i.
    rewrite shifted_in_lookup.
    + rewrite decide_False by lia. by rewrite decide_True.
    + destruct Hi as [(r & Hr & _) _]. by eapply lookup_lt_Some.
  - apply list_elem_of_lookup in Hin as [k Hk]. by destruct (Hmiss k row).
Qed.

Lemma addScore_records_witness :
  (exists row : Entry, row ∈ ranking /\ 42 <= row.1) /\
  (42, "u"%string) ∈ (addScore ranking 42 "u").1.
Proof.
  assert (H : exists row : Entry, row ∈ ranking /\ 42 <= row.1).
  { exists (100, EmptyString). split; [apply list_elem_of_here | discriminate]. }
  split; [exact H|]. exact (addScore_records ranking 42 "u"%string H).
Defined.

(** X6.  A recorded score evicts the last row and no other: when the array
    is [init] followed by [last] and some stored score is at least [score],
    the array after the call is [init] with [(score, url)] put in at some
    index, the rows of [init] keeping their order. *)
Theorem addScore_evicts_last (init : list Entry) last score url :
  (exists row, row ∈ init ++ [last] /\ score <= row.1) ->
  exists i, (i <= length init)%nat /\
    (addScore (init ++ [last]) score url).1
    = take i init ++ (score, url) :: drop i init.
Proof.
  intros (row & Hin & Hle).
  destruct (slot_cases (init ++ [last]) score) as [[i Hi]|Hmiss].
  - exists i. pose proof (first_slot_snoc _ _ _ _ Hi) as Hlen.
    split; [done|]. rewrite (addScore_hit _ _ _ _ Hi). cbn [fst].
    by apply shifted_in_snoc.
  - apply list_elem_of_lookup in Hin as [k Hk]. by destruct (Hmiss k row).
Qed.

Lemma addScore_evicts_last_witness :
  exists i, (i <= 3)%nat /\
    (addScore ([(3, "e"); (5, "c"); (9, "y")]%string ++ [(50, "b"%string)])
       4 "f").1
    = take i [(3, "e"); (5, "c"); (9, "y")]%string
      ++ (4, "f"%string) :: drop i [(3, "e"); (5, "c"); (9, "y")]%string.
Proof.
  refine (addScore_evicts_last [(3, "e"); (5, "c"); (9, "y")]%string
            (50, "b"%string) 4 "f" _).
  exists (50, "b"%string). split; [|discriminate].
  apply list_elem_of_lookup. by exists 3%nat.
Defined.

(** A bound on every stored score is kept by [addScore]. *)
Lemma addScore_bound (array : list Entry) score url B :
  Forall (fun row : Entry => row.1 <= B) array ->
  Forall (fun row : Entry => row.1 <= B) (addScore array score url).1.
Proof.
  intros Hall. destruct (slot_cases array score) as [[i Hi]|Hmiss];
    [|by rewrite (addScore_miss _ _ _ Hmiss)].
  rewrite (addScore_hit _ _ _ _ Hi). cbn [fst].
  destruct Hi as [(row & Hrow & Hle) _].
  assert (Hlen : (i < length array)%nat) by (by eapply lookup_lt_Some).
  rewrite Forall_lookup in Hall. apply Forall_lookup. intros k x.
  rewrite shifted_in_lookup by done.
  intros Hx. repeat case_decide; simplify_eq/=.
  - by apply (Hall k).
  - eapply Qle_trans; [done | by apply (Hall i row)].
  - by apply (Hall (k - 1)%nat).
Qed.

Lemma addScores_bound calls B : forall array : list Entry,
  Forall (fun row : Entry => row.1 <= B) array ->
  Forall (fun row : Entry => row.1 <= B) (addScores array calls).
Proof.
  induction calls as [|c calls IH]; intros array Hall; [done|].
  apply IH. by apply addScore_bound.
Qed.

(** X7.  The worst stored score never gets worse: a number that bounds every
    score of the array still bounds every score after any series of calls.
    From [ranking], no score above 100 is ever stored. *)
Theorem addScores_never_worse (array : list Entry) calls B :
  Forall (fun row : Entry => row.1 <= B) array ->
  Forall (fun row : Entry => row.1 <= B) (addScores array calls) /\
  Forall (fun row : Entry => row.1 <= 100) (addScores ranking calls).
Proof.
  intros Hall. split; [by apply addScores_bound|].
  apply addScores_bound. repeat constructor; discriminate.
Qed.

Lemma addScores_never_worse_witness :
  Forall (fun row : Entry => row.1 <= 60)
    (addScores [(3, "e"); (60, "z")]%string [(250, "far"); (7, "near")]%string).
Proof.
  apply (proj1 (addScores_never_worse [(3, "e"); (60, "z")]%string
                  [(250, "far"); (7, "near")]%string 60
                  ltac:(repeat constructor; discriminate))).
Defined.

(** One call on an ascending array keeps the rows with the smallest scores:
    the row that is left out, the last one or the new one, is at least
    every row that is kept. *)
Lemma addScore_keeps_best (array : list Entry) score url :
  ascending array ->
  exists out,
    (addScore array score url).1 ++ [out] ≡ₚ array ++ [(score, url)] /\
    Forall (fun row : Entry => row.1 <= out.1) (addScore array score url).1.
Proof.
  intros Hasc. destruct (slot_cases array score) as [[i Hi]|Hmiss].
  - rewrite (addScore_hit _ _ _ _ Hi). cbn [fst].
    destruct array as [|lst init _] using rev_ind.
    + by destruct Hi as [(row & Hrow & _) _].
    + exists lst.
      pose proof (first_slot_snoc _ _ _ _ Hi) as Hlen.
      rewrite shifted_in_snoc by done.
      destruct Hi as [(row & Hrow & Hle) _].
      assert (Hlast : (init ++ [lst]) !! length init = Some lst)
        by (by rewrite list_lookup_middle).
      split.
      * rewrite <- (Permutation_middle (take i init) (drop i init)), take_drop.
        rewrite <- (Permutation_cons_append (init ++ [lst])). done.
      * assert (Hinit : Forall (fun r : Entry => r.1 <= lst.1) init).
        { apply Forall_lookup. intros k x Hx.
          apply (ascending_le (init ++ [lst]) k (length init) x lst);
            [done | | by apply lookup_app_l_Some | done].
          apply lookup_lt_Some in Hx. lia. }
        apply Forall_app_2; [by apply Forall_take|].
        apply Forall_cons_2; [|by apply Forall_drop]. cbn [fst].
        eapply Qle_trans; [done|].
        by apply (ascending_le (init ++ [lst]) i (length init) row lst).
  - rewrite (addScore_miss _ _ _ Hmiss). cbn [fst].
    exists (score, url). split; [done|].
    apply Forall_lookup. intros k x Hx. cbn [fst].
    apply Qlt_le_weak, Qnot_le_lt. by apply (Hmiss k x).
Qed.

(** X8.  The scoreboard keeps the best: after any series of calls on an
    ascending array, the array and the rows left out are together the old
    rows and the submitted ones, and no row left out has a smaller score
    than a row of the array. *)
Theorem addScores_keeps_best calls : forall array : list Entry,
  ascending array ->
  exists rest,
    addScores array calls ++ rest ≡ₚ array ++ calls /\
    forall row out, row ∈ addScores array calls -> out ∈ rest ->
                    row.1 <= out.1.
Proof.
  induction calls as [|[score url] calls IH]; intros array Hasc.
  - exists []. split; [done|]. intros row out _ Hout.
    by apply elem_of_nil in Hout.
  - destruct (addScore_keeps_best array score url Hasc) as (out1 & Hp1 & Hb1).
    destruct (IH (addScore array score url).1
                 (addScore_ascending _ _ _ Hasc)) as (rest & Hp & Hb).
    exists (out1 :: rest). cbn [addScores fold_left fst snd]. split.
    + etrans; [symmetry; apply Permutation_middle|]. rewrite Hp.
      rewrite app_comm_cons.
      rewrite (Permutation_cons_append (addScore array score url).1 out1).
      rewrite Hp1, <- app_assoc. done.
    + intros row out Hrow Hout. apply elem_of_cons in Hout as [->|Hout].
      * pose proof (addScores_bound calls out1.1 _ Hb1) as Hall.
        rewrite Forall_lookup in Hall.
        apply list_elem_of_lookup in Hrow as [k Hk]. by apply (Hall k).
      * by apply Hb.
Qed.

Lemma addScores_keeps_best_witness :
  exists rest,
    addScores ranking [(10, "a"); (50, "b")]%string ++ rest
      ≡ₚ ranking ++ [(10, "a"); (50, "b")]%string /\
    forall row out,
      row ∈ addScores ranking [(10, "a"); (50, "b")]%string ->
      out ∈ rest -> row.1 <= out.1.
Proof.
  exact (addScores_keeps_best [(10, "a"); (50, "b")]%string ranking
           ascending_ranking).
Defined.

(** * More of the comparison and of the driver *)



Section More.
Context `{Shapely}.

Lemma match_loop_values (font1 font2 : Font) check_chars total count :
  Forall (fun i => exists d, letter_difference font1 font2 i = Ok d)
         check_chars ->
  match_loop font1 font2 check_chars total count
  = Ok (fold_left Qplus (map (letter_value font1 font2) check_chars) total,
        (count + Z.of_nat (length check_chars))%Z).
Proof.
  intros Hall.
  pose proof (match_loop_app font1 font2
                (map (letter_value font1 font2) check_chars)
                check_chars [] total count) as E.
  rewrite app_nil_r in E. rewrite E; [done|].
  apply Forall2_fmap_r, Forall_Forall2_diag.
  eapply Forall_impl; [|exact Hall]. intros i [d Hd].
  unfold compose, letter_value. by rewrite Hd.
Qed.


(** What [match] returns when every letter gives a difference. *)
Lemma match_value check_chars location1 location2 (font1 font2 : Font) :
  TTFont location1 = Ok font1 -> TTFont location2 = Ok font2 ->
  check_chars <> [] ->
  Forall (fun i => exists d, letter_difference font1 font2 i = Ok d)
         check_chars ->
  exists s, match_ check_chars location1 location2 = Ok s /\
            s == mean (map (letter_value font1 font2) check_chars).
Proof.
  intros H1 H2 Hne Hall. unfold match_. rewrite H1, H2. cbn [rbind].
  rewrite (match_loop_values _ _ _ _ _ Hall). cbn [rbind fst snd].
  rewrite Z.add_0_l, pydiv_nonzero.
  - eexists. split; [done|]. unfold mean.
    rewrite fold_left_Qplus, length_map. by rewrite Qplus_0_l.
  - destruct check_chars as [|i l]; [done|]. cbn [length].
    unfold Qeq. cbn. lia.
Qed.


Lemma search_bound check_chars location1 candidates B :
  forall ranking : list Entry,
    Forall (fun row : Entry => row.1 <= B) ranking ->
    Forall (fun row : Entry => row.1 <= B)
           (search check_chars location1 ranking candidates).
Proof.
  induction candidates as [|c candidates IH]; intros ranking Hall; [done|].
  cbn [search fold_left]. apply IH. unfold add_candidate.
  destruct (match_ check_chars location1 c.2); [|done].
  by apply addScore_bound.
Qed.

End More.

(** X9.  The driver's loop is a series of [addScore] calls, one for each
    candidate whose comparison returns, with 100 times the result of
    [match] as score and the URL as label; a candidate whose comparison
    raises leaves no trace in the scoreboard. *)
Theorem search_scored `{Shapely} check_chars location1 candidates :
  forall ranking : list Entry,
    search check_chars location1 ranking candidates
    = addScores ranking (scored check_chars location1 candidates).
Proof.
  unfold search, scored, addScores.
  induction candidates as [|c candidates IH]; intros ranking; [done|].
  cbn [fold_left omap list_omap]. rewrite IH. unfold add_candidate.
  cbv beta. by destruct (match_ check_chars location1 c.2).
Qed.

(** X10.  Whatever the catalogue holds and whichever comparisons raise, the
    scoreboard the driver ends with, from the initial [ranking], has five
    rows, in ascending order of score, none above 100. *)
Theorem search_report `{Shapely} check_chars location1 candidates :
  length (search check_chars location1 ranking candidates) = 5%nat /\
  ascending (search check_chars location1 ranking candidates) /\
  Forall (fun row : Entry => row.1 <= 100)
         (search check_chars location1 ranking candidates).
Proof.
  destruct (search_invariant check_chars location1 candidates ranking)
    as [Hlen Hasc].
  split; [by rewrite Hlen|]. split; [by apply Hasc, ascending_ranking|].
  apply search_bound. repeat constructor; discriminate.
Qed.



(** X12.  When both fonts load and every letter of a non-empty
    [check_chars] is scorable, [match] returns a fraction between 0 and 1,
    and the score the driver submits is a percentage between 0 and 100. *)
Theorem match_fraction `{Shapely} check_chars location1 location2
    (font1 font2 : Font) :
  TTFont location1 = Ok font1 -> TTFont location2 = Ok font2 ->
  check_chars <> [] ->
  Forall (scorable font1 font2) check_chars ->
  exists s, match_ check_chars location1 location2 = Ok s /\
            0 <= s <= 1 /\ 0 <= s * 100 <= 100.
Proof.
  intros H1 H2 Hne Hall.
  assert (Hd : Forall (fun i =>
              letter_difference font1 font2 i
                = Ok (letter_value font1 font2 i) /\
              0 <= letter_value font1 font2 i <= 1) check_chars).
  { eapply Forall_impl; [|exact Hall].
    intros i (poly1 & poly2 & sp & Hp1 & Hp2 & Hs & H0 & Hle & Hpos).
    destruct (difference_unit_interval poly1 sp H0 Hle Hpos) as (d & Ed & Hd).
    assert (E : letter_difference font1 font2 i = Ok d).
    { unfold letter_difference. rewrite Hp1, Hp2. cbn [rbind].
      by rewrite Hs. }
    unfold letter_value. by rewrite E. }
  destruct (match_value check_chars _ _ _ _ H1 H2 Hne) as (s & Hs & Es).
  { eapply Forall_impl; [|exact Hd]. intros i [E _]. eauto. }
  exists s. split; [done|].
  assert (Hm : 0 <= mean (map (letter_value font1 font2) check_chars) * 100
               <= 100).
  { apply mean_percentage; [by destruct check_chars|].
    apply Forall_map. eapply Forall_impl; [|exact Hd]. by intros i [_ ?]. }
  rewrite Es. lra.
Qed.

Lemma match_fraction_witness :
  exists s, @match_ Rectilinear.world ["A"%string] "square.ttf" "ell.ttf"
            = Ok s /\ 0 <= s <= 1 /\ 0 <= s * 100 <= 100.
Proof.
  refine (@match_fraction Rectilinear.world ["A"%string]
            "square.ttf" "ell.ttf" Rectilinear.square Rectilinear.ell
            _ _ _ _).
  - reflexivity.
  - reflexivity.
  - discriminate.
  - constructor; [|constructor]. do 3 eexists.
    split; [reflexivity|]. split; [reflexivity|]. split; [reflexivity|].
    split; [apply Qle_bool_iff; reflexivity|].
    split; [apply Qle_bool_iff; reflexivity|]. reflexivity.
Defined.





(** X15.  Regions that do not overlap differ by the whole: when the
    intersection has area 0 and the union has an area, the difference of
    the letter is 1, which the driver submits as 100 (the value the
    scoreboard starts from, lines 66-68). *)
Theorem difference_no_overlap `{Shapely} (poly1 scale_poly2 : Region) :
  area (poly1 ∩ scale_poly2) == 0 ->
  ~ area (poly1 ∪ scale_poly2) == 0 ->
  exists d, difference poly1 scale_poly2 = Ok d /\ d == 1 /\ d * 100 == 100.
Proof.
  intros HI HU. unfold difference. rewrite (pydiv_nonzero _ _ HU).
  eexists. split; [done|]. rewrite HI.
  split; [by field | field_simplify; [reflexivity | done]].
Qed.

Lemma difference_no_overlap_witness :
  exists d,
    difference Rectilinear.square_region Rectilinear.far_region = Ok d /\
    d == 1 /\ d * 100 == 100.
Proof.
  refine (@difference_no_overlap Rectilinear.world _ _ _ _).
  - reflexivity.
  - apply Qeq_bool_neq. reflexivity.
Defined.

(** X16.  When the reference font cannot be loaded, every comparison raises
    and the driver's loop changes nothing: the scoreboard it ends with is
    the one it started from, whatever the catalogue holds. *)
Theorem search_reference_unreadable `{Shapely} check_chars location1 e
    candidates :
  TTFont location1 = Raise e ->
  forall ranking : list Entry,
    search check_chars location1 ranking candidates = ranking.
Proof.
  intros H1. induction candidates as [|c candidates IH]; intros ranking;
    [done|].
  cbn [search fold_left]. fold (search check_chars location1).
  rewrite (add_candidate_raise _ _ _ _ _ e); [apply IH|].
  unfold match_. by rewrite H1.
Qed.

Lemma search_reference_unreadable_witness :
  @search Rectilinear.world ["A"%string] "missing.ttf" ranking
    [("u1", "ell.ttf"); ("u2", "square.ttf")]%string = ranking.
Proof.
  refine (@search_reference_unreadable Rectilinear.world ["A"%string]
            "missing.ttf" (OtherError "FileNotFoundError") _ _ ranking).
  reflexivity.
Defined.

(** X17.  With no letter to check, no candidate gets a score: the driver's
    loop leaves the scoreboard as it was, whatever the fonts are. *)
Theorem search_no_letters `{Shapely} location1 candidates :
  forall ranking : list Entry, search [] location1 ranking candidates = ranking.
Proof.
  induction candidates as [|c candidates IH]; intros ranking; [done|].
  cbn [search fold_left]. fold (search [] location1).
  assert (He : exists e, match_ [] location1 c.2 = Raise e).
  { unfold match_. destruct (TTFont location1); [|by eexists].
    destruct (TTFont c.2); by eexists. }
  destruct He as [e He]. rewrite (add_candidate_raise _ _ _ _ _ e He).
  apply IH.
Qed.
